(** * A shallow embedding of [crawlweb.py]

    The program crawls a web of pages from a seed, builds an inverted index
    and a link graph, ranks the pages by a fixed number of rank-propagation
    sweeps and answers keyword queries ordered by rank.

    Conventions of the embedding:
    - a Python [str] is a [string]; each character is read as one code point
      of the range U+0000..U+00FF;
    - a Python [set] of strings is a [gset string];
    - a Python [dict] is an insertion-ordered association list ([Dict.t]);
    - indices are [Z], with Python's treatment of negative and out-of-range
      positions written out;
    - exceptions are an explicit result type; a [while True] loop takes fuel,
      and running out of fuel ([None]) stands for a loop that has not
      returned yet;
    - the numeric code of [computeRanks] and [lookUpRanked] is written once
      over an interface of number operations and read at the rationals [Q]
      (exact arithmetic) and at binary64 floats (what the interpreter runs). *)

From Stdlib Require Import QArith Qabs.
From Stdlib Require Import Floats.PrimFloat Numbers.Cyclic.Int63.Uint63.
From Stdlib Require Import Ascii String.
From stdpp Require Import gmap strings list.

Local Open Scope Z_scope.

(** ** Python string primitives *)

Module Py.

(** The double quote character (code 34). *)
Definition dquote : string := String "034"%char EmptyString.

Definition len (s : string) : Z := Z.of_nat (String.length s).

(** [s.startswith(p)]. *)
Definition startswith (s p : string) : bool := String.prefix p s.

Fixpoint drop (n : nat) (s : string) : string :=
  match n, s with
  | O, _ => s
  | S n', String _ s' => drop n' s'
  | S _, EmptyString => EmptyString
  end.

Fixpoint take (n : nat) (s : string) : string :=
  match n, s with
  | S n', String c s' => String c (take n' s')
  | _, _ => EmptyString
  end.

(** The position of a slice bound: a negative bound counts from the end,
    and every bound is clamped to [0 .. len s]. *)
Definition clamp (s : string) (i : Z) : Z :=
  let n := len s in
  if i <? 0 then Z.max 0 (i + n) else Z.min i n.

(** [s[a:b]]. *)
Definition slice (s : string) (a b : Z) : string :=
  let a' := clamp s a in
  let b' := clamp s b in
  take (Z.to_nat (b' - a')) (drop (Z.to_nat a') s).

(** [s[a:]]. *)
Definition slice_from (s : string) (a : Z) : string :=
  drop (Z.to_nat (clamp s a)) s.

(** First occurrence of [sub] in [s], where [s] is the part of the
    subject that starts at position [i]; [-1] when there is none. *)
Fixpoint find_at (s sub : string) (i : Z) : Z :=
  if String.prefix sub s then i
  else match s with
       | EmptyString => -1
       | String _ s' => find_at s' sub (i + 1)
       end.

(** [s.find(sub, start)]. *)
Definition find (s sub : string) (start : Z) : Z :=
  let n := len s in
  let st := if start <? 0 then Z.max 0 (start + n) else start in
  if n <? st then -1 else find_at (drop (Z.to_nat st) s) sub st.

(** [sub in s]. *)
Definition contains (s sub : string) : bool :=
  negb (find s sub 0 =? -1).

(** [s.split(c)[0]]: the part of [s] before the first [c]. *)
Fixpoint split_head (c : ascii) (s : string) : string :=
  match s with
  | EmptyString => EmptyString
  | String x s' => if Ascii.eqb x c then EmptyString else String x (split_head c s')
  end.

(** [c.isspace()] over U+0000..U+00FF. *)
Definition isspace (c : ascii) : bool :=
  let n := nat_of_ascii c in
  ((9 <=? n) && (n <=? 13) || (28 <=? n) && (n <=? 32)
   || (n =? 133) || (n =? 160))%nat.

(** [c.lower()] over U+0000..U+00FF: the letters A..Z and the capital
    letters of U+00C0..U+00DE (the multiplication sign U+00D7 apart). *)
Definition lower_char (c : ascii) : ascii :=
  let n := nat_of_ascii c in
  if ((65 <=? n) && (n <=? 90)
      || (192 <=? n) && (n <=? 222) && negb (n =? 215))%nat
  then ascii_of_nat (n + 32) else c.

Fixpoint lower (s : string) : string :=
  match s with
  | EmptyString => EmptyString
  | String c s' => String (lower_char c) (lower s')
  end.

(** [s.split()]: maximal runs of non-whitespace characters.  [tok] is the
    run being read. *)
Fixpoint split_go (s tok : string) : list string :=
  match s with
  | EmptyString => if decide (tok = EmptyString) then [] else [tok]
  | String c s' =>
      if isspace c
      then (if decide (tok = EmptyString) then split_go s' EmptyString
            else tok :: split_go s' EmptyString)
      else split_go s' (tok +:+ String c EmptyString)
  end.

Definition split (s : string) : list string := split_go s EmptyString.

End Py.

(** ** Exceptions *)

Inductive exn : Type :=
| ZeroDivisionError
| KeyError (key : string).

Inductive result (A : Type) : Type :=
| Ok (a : A)
| Raise (e : exn).
Arguments Ok {A} a.
Arguments Raise {A} e.

#[global] Instance result_ret : MRet result := fun A a => Ok a.
#[global] Instance result_bind : MBind result := fun A B k m =>
  match m with
  | Ok a => k a
  | Raise e => Raise e
  end.

(** A [for x in xs:] loop whose body may raise, threading the state [s]. *)
Fixpoint for_each {A S : Type} (xs : list A) (s : S) (body : A -> S -> result S)
  : result S :=
  match xs with
  | [] => Ok s
  | x :: xs' => s' ← body x s; for_each xs' s' body
  end.

(** ** Python dictionaries: insertion-ordered association lists *)

Module Dict.
Section Dict.
Context {V : Type}.

Definition t := list (string * V).

Definition keys (d : t) : list string := map fst d.

(** [d.get(k)]. *)
Fixpoint get (d : t) (k : string) : option V :=
  match d with
  | [] => None
  | (k', v) :: d' => if decide (k' = k) then Some v else get d' k
  end.

(** [k in d]. *)
Definition mem (d : t) (k : string) : bool :=
  match get d k with Some _ => true | None => false end.

(** [d[k]]. *)
Definition getitem (d : t) (k : string) : result V :=
  match get d k with
  | Some v => Ok v
  | None => Raise (KeyError k)
  end.

(** [d[k] = v]: an existing key keeps its position, a new key goes last. *)
Fixpoint set (d : t) (k : string) (v : V) : t :=
  match d with
  | [] => [(k, v)]
  | (k', v') :: d' =>
      if decide (k' = k) then (k, v) :: d' else (k', v') :: set d' k v
  end.

(** The keys of a dictionary are pairwise different. *)
Definition wf (d : t) : Prop := NoDup (keys d).
End Dict.
Arguments t : clear implicits.
End Dict.

(** ** Link extraction: [linkFinder] *)

(** The anchor marker the scan looks for. *)
Definition marker : string := "<a href=".

(** Lines 121-135: fragment, protocol-relative and relative handling of one
    candidate.  [baseUrl] is the base after [baseUrl or ''], so the empty
    string stands for no base. *)
Definition resolveLink (baseUrl link : string) : string :=
  let link := if Py.contains link "#" then Py.split_head "#"%char link else link in
  let link := if Py.startswith link "//" then "http:" +:+ link else link in
  if negb (Py.startswith link "http://") && negb (Py.startswith link "https://")
  then
    if negb (String.eqb baseUrl "")
    then
      if Py.startswith link "/" then baseUrl +:+ link
      else baseUrl +:+ "/" +:+ link
    else link
  else link.

(** Line 138: the scheme filter. *)
Definition isHttp (link : string) : bool :=
  Py.startswith link "http://" || Py.startswith link "https://".

(** Lines 111-139, the [while True] loop.  [None]: the loop has not reached
    its [break] within [fuel] iterations. *)
Fixpoint linkFinder_loop (fuel : nat) (page baseUrl : string) (urls : gset string)
  : option (gset string) :=
  match fuel with
  | O => None
  | S fuel' =>
      let startPoint := Py.find page marker 0 in
      if startPoint =? -1 then Some urls
      else
        let startQuote := Py.find page Py.dquote startPoint in
        let endQuote := Py.find page Py.dquote (startQuote + 1) in
        let link := Py.slice page (startQuote + 1) endQuote in
        let page := Py.slice_from page (endQuote + 1) in
        let link := resolveLink baseUrl link in
        let urls := if isHttp link then urls ∪ {[ link ]} else urls in
        linkFinder_loop fuel' page baseUrl urls
  end.

(** [linkFinder(page, baseUrl)].  Every iteration that does not leave the
    page unchanged shortens it, so [S (length page)] iterations reach the
    [break] whenever the loop reaches it at all (lemma
    [linkFinder_loop_enough] below): [None] is a scan that never returns. *)
Definition linkFinder (page : string) (baseUrl : option string)
  : option (gset string) :=
  linkFinder_loop (S (String.length page)) page (default "" baseUrl) ∅.

(** ** The indexer: [addToIndex], [addPageToIndex] *)

Abbreviation Index := (Dict.t (list string)).
Abbreviation Graph := (Dict.t (gset string)).

Definition addToIndex (index : Index) (keyword url : string) : Index :=
  match Dict.get index keyword with
  | Some urls => Dict.set index keyword (urls ++ [url])
  | None => Dict.set index keyword [url]
  end.

Definition addPageToIndex (index : Index) (url content : string) : Index :=
  let words := Py.split content in
  fold_left (fun index word => addToIndex index word url) words index.

(** ** The crawler: [crawlWeb] *)

Section Crawl.
(** The network is a state [World] that [getPage] reads and may change;
    [getPage] returns the page text, the empty string on any failure. *)
Context {World : Type}.
Variable getPage : World -> string -> World * string.
(** [pop i s] is the element that [tocrawl.pop()] removes from the set [s]
    at the [i]-th iteration of the loop: Python leaves the choice open. *)
Variable pop : nat -> gset string -> string.

Record crawl_state : Type := CrawlState {
  tocrawl : gset string;
  crawled : gset string;
  index : Index;
  graph : Graph;
  world : World;
  (** ghost: the URLs passed to [getPage], oldest first *)
  fetched : list string
}.

(** Lines 160-167, one iteration of [while tocrawl:] that pops [page].
    [None]: [linkFinder] never returns on the fetched content. *)
Definition crawl_body (page : string) (st : crawl_state) : option crawl_state :=
  let tocrawl' := tocrawl st ∖ {[ page ]} in
  if decide (page ∈ crawled st)
  then Some (CrawlState tocrawl' (crawled st) (index st) (graph st)
               (world st) (fetched st))
  else
    let '(world', content) := getPage (world st) page in
    let index' := addPageToIndex (index st) page content in
    match linkFinder content None with
    | None => None
    | Some outlinks =>
        Some (CrawlState (tocrawl' ∪ outlinks) (crawled st ∪ {[ page ]})
                index' (Dict.set (graph st) page outlinks)
                world' (fetched st ++ [page]))
    end.

(** Lines 159-167; [i] counts the iterations done so far. *)
Fixpoint crawl_loop (fuel i : nat) (st : crawl_state) : option crawl_state :=
  match fuel with
  | O => None
  | S fuel' =>
      if decide (tocrawl st = ∅) then Some st
      else
        match crawl_body (pop i (tocrawl st)) st with
        | None => None
        | Some st' => crawl_loop fuel' (S i) st'
        end
  end.

Definition crawl_init (seed : string) (w : World) : crawl_state :=
  CrawlState {[ seed ]} ∅ [] [] w [].

(** The final state of the crawl, ghost fields included. *)
Definition crawl (fuel : nat) (seed : string) (w : World) : option crawl_state :=
  crawl_loop fuel 0 (crawl_init seed w).

(** [crawlWeb(seed)]. *)
Definition crawlWeb (fuel : nat) (seed : string) (w : World)
  : option (Index * Graph) :=
  st ← crawl fuel seed w; Some (index st, graph st).
End Crawl.

(** ** Numbers *)

(** The operations the rank and query code uses on numbers.  Python's [/]
    raises on a zero divisor; [num_div] is the quotient otherwise. *)
Class Number (F : Type) : Type := {
  num_of_int : Z -> F;
  num_damping : F;
  num_add : F -> F -> F;
  num_sub : F -> F -> F;
  num_mul : F -> F -> F;
  num_div : F -> F -> F;
  num_is_zero : F -> bool;
  num_ltb : F -> F -> bool
}.

(** Exact arithmetic: the literal [0.8] is four fifths. *)
#[global] Instance Q_number : Number Q := {|
  num_of_int := inject_Z;
  num_damping := 4 # 5;
  num_add := Qplus;
  num_sub := Qminus;
  num_mul := Qmult;
  num_div := Qdiv;
  num_is_zero q := Qeq_bool q 0;
  num_ltb a b := negb (Qle_bool b a)
|}.

(** Binary64 arithmetic: the literal [0.8] is the nearest binary64 value. *)
#[global] Instance float_number : Number float := {|
  num_of_int z := PrimFloat.of_uint63 (Uint63.of_Z z);
  num_damping := 0x1.999999999999ap-1%float;
  num_add := PrimFloat.add;
  num_sub := PrimFloat.sub;
  num_mul := PrimFloat.mul;
  num_div := PrimFloat.div;
  num_is_zero x := PrimFloat.eqb x PrimFloat.zero;
  num_ltb := PrimFloat.ltb
|}.

Section Ranking.
Context {F : Type} `{Number F}.

(** [a / b]. *)
Definition truediv (a b : F) : result F :=
  if num_is_zero b then Raise ZeroDivisionError else Ok (num_div a b).

Definition numloops : nat := 10.

(** Lines 186-187. *)
Definition initRanks (graph : Graph) : result (Dict.t F) :=
  let npages := Z.of_nat (length graph) in
  for_each (Dict.keys graph) [] (fun page ranks =>
    r ← truediv (num_of_int 1) (num_of_int npages);
    Ok (Dict.set ranks page r)).

(** Lines 194-195, the body of [for node in graph:] for the page [page]. *)
Definition addInlink (graph : Graph) (ranks : Dict.t F) (page node : string)
    (newrank : Dict.t F) : result (Dict.t F) :=
  let damping := num_damping in
  outlinks ← Dict.getitem graph node;
  if decide (page ∈ outlinks)
  then
    cur ← Dict.getitem newrank page;
    r ← Dict.getitem ranks node;
    q ← truediv r (num_of_int (Z.of_nat (size outlinks)));
    Ok (Dict.set newrank page (num_add cur (num_mul damping q)))
  else Ok newrank.

(** Lines 192-195, the body of [for page in graph:]. *)
Definition rankPage (graph : Graph) (ranks : Dict.t F) (page : string)
    (newrank : Dict.t F) : result (Dict.t F) :=
  let damping := num_damping in
  let npages := Z.of_nat (length graph) in
  base ← truediv (num_sub (num_of_int 1) damping) (num_of_int npages);
  let newrank := Dict.set newrank page base in
  for_each (Dict.keys graph) newrank (addInlink graph ranks page).

(** Lines 190-196, one pass of [for i in range(numloops)]: the new
    mapping is built from [ranks] and replaces it at the end. *)
Definition rankSweep (graph : Graph) (ranks : Dict.t F) : result (Dict.t F) :=
  for_each (Dict.keys graph) [] (rankPage graph ranks).

Fixpoint rankLoop (n : nat) (graph : Graph) (ranks : Dict.t F)
  : result (Dict.t F) :=
  match n with
  | O => Ok ranks
  | S n' => newrank ← rankSweep graph ranks; rankLoop n' graph newrank
  end.

(** [computeRanks(graph)]. *)
Definition computeRanks (graph : Graph) : result (Dict.t F) :=
  ranks ← initRanks graph;
  rankLoop numloops graph ranks.

(** ** The query engine: [lookUpRanked] *)

(** The order of two sort keys; a key is what [readyToSort.get] returns. *)
Definition key_ltb (a b : option F) : bool :=
  match a, b with
  | Some x, Some y => num_ltb x y
  | _, _ => false
  end.

(** [sorted(xs, key=key, reverse=True)]: descending keys, and elements
    with equal keys keep the order they had in [xs]. *)
Fixpoint insert_desc (key : string -> option F) (x : string) (l : list string)
  : list string :=
  match l with
  | [] => [x]
  | y :: l' =>
      if key_ltb (key x) (key y) then y :: insert_desc key x l'
      else x :: y :: l'
  end.

Definition sorted_reverse (key : string -> option F) (xs : list string)
  : list string :=
  foldr (insert_desc key) [] xs.

(** Lines 216-220. *)
Definition collect (index : Index) (keyword : string) (ranks : Dict.t F)
  : Dict.t F :=
  fold_left (fun readyToSort word =>
    if Py.contains (Py.lower word) keyword
    then
      let unsortedlist := default [] (Dict.get index word) in
      fold_left (fun readyToSort elements =>
        Dict.set readyToSort elements
          (default (num_of_int 0) (Dict.get ranks elements)))
        unsortedlist readyToSort
    else readyToSort) (Dict.keys index) [].

(** [lookUpRanked(index, keyword, ranks)]; [None] is Python's [None]. *)
Definition lookUpRanked (index : Index) (keyword : string) (ranks : Dict.t F)
  : option (list string) :=
  let keyword := Py.lower keyword in
  let readyToSort := collect index keyword ranks in
  if decide (readyToSort = []) then None
  else Some (sorted_reverse (Dict.get readyToSort) (Dict.keys readyToSort)).
End Ranking.

(** ** Reading the scan of [linkFinder] apart from its filter *)

(** Lines 116-117: where the closing quote of the first candidate is. *)
Definition endQuote (page : string) : Z :=
  let startPoint := Py.find page marker 0 in
  let startQuote := Py.find page Py.dquote startPoint in
  Py.find page Py.dquote (startQuote + 1).

(** Line 118: the quoted value of the first candidate. *)
Definition rawLink (page : string) : string :=
  let startPoint := Py.find page marker 0 in
  let startQuote := Py.find page Py.dquote startPoint in
  Py.slice page (startQuote + 1) (endQuote page).

(** Line 119: what is left to scan after the first candidate. *)
Definition nextPage (page : string) : string :=
  Py.slice_from page (endQuote page + 1).

(** The quoted values the loop reads, in scan order. *)
Fixpoint rawLinks (fuel : nat) (page : string) : option (list string) :=
  match fuel with
  | O => None
  | S fuel' =>
      if Py.find page marker 0 =? -1 then Some []
      else raws ← rawLinks fuel' (nextPage page); Some (rawLink page :: raws)
  end.

(** The four steps the specification lists for one candidate value, in its
    words: strip the fragment, resolve a protocol-relative value, resolve a
    relative value against the base (dropped when there is no base), keep a
    value whose final form is absolute. *)
Definition spec_absolute (v : string) : bool :=
  String.prefix "http://" v || String.prefix "https://" v.

Definition spec_final (base : option string) (v : string) : option string :=
  let v1 := Py.split_head "#"%char v in
  let v2 := if String.prefix "//" v1 then "http:" +:+ v1 else v1 in
  let v3 :=
    if spec_absolute v2 then Some v2
    else match base with
         | Some b => Some (if String.prefix "/" v2 then b +:+ v2 else b +:+ "/" +:+ v2)
         | None => None
         end in
  match v3 with
  | Some final => if spec_absolute final then Some final else None
  | None => None
  end.

(** ** Tokenization by whitespace, as the specification words it *)

Definition all_space (s : string) : Prop :=
  ∀ c, c ∈ list_ascii_of_string s → Py.isspace c = true.

Definition no_space (s : string) : Prop :=
  ∀ c, c ∈ list_ascii_of_string s → Py.isspace c = false.

(** [tokenized s toks]: [toks] are the maximal whitespace-free runs of [s],
    in order and verbatim. *)
Inductive tokenized : string → list string → Prop :=
| tokenized_nil ws :
    all_space ws → tokenized ws []
| tokenized_last ws t :
    all_space ws → t ≠ "" → no_space t → tokenized (ws +:+ t) [t]
| tokenized_cons ws t c rest toks :
    all_space ws → t ≠ "" → no_space t → Py.isspace c = true →
    tokenized rest toks →
    tokenized (ws +:+ t +:+ String c rest) (t :: toks).

(** How often [word] occurs among [words]. *)
Definition occurrences (word : string) (words : list string) : nat :=
  length (filter (λ w, w = word) words).

(** ** The rank formula, as the specification words it *)

Definition outlinks (graph : Graph) (q : string) : gset string :=
  default ∅ (Dict.get graph q).

Definition Qsum (xs : list Q) : Q := foldr Qplus 0%Q xs.

(** The damping factor [d] and the number of pages [N]. *)
Definition spec_d : Q := 4 # 5.
Definition spec_N (graph : Graph) : Q := inject_Z (Z.of_nat (length graph)).

(** [newRank(p) = (1 - d)/N + d * sum over q with p in outlinks(q) of
    oldRank(q) / |outlinks(q)|]. *)
Definition spec_newRank (graph : Graph) (oldRank : string → Q) (p : string) : Q :=
  ((1 - spec_d) / spec_N graph
   + spec_d * Qsum ((λ q, oldRank q / inject_Z (Z.of_nat (size (outlinks graph q))))
                      <$> filter (λ q, p ∈ outlinks graph q) (Dict.keys graph)))%Q.

(** The rank of [p] after [k] synchronous sweeps from the uniform start
    [1/N]: every sweep reads the ranks of the sweep before. *)
Fixpoint spec_rank (graph : Graph) (k : nat) (p : string) : Q :=
  match k with
  | O => (1 / spec_N graph)%Q
  | S k' => spec_newRank graph (spec_rank graph k') p
  end.

(** The sum of the ranks of a rank mapping. *)
Definition rank_sum (ranks : Dict.t Q) : Q := Qsum (snd <$> ranks).

(** ** The arithmetic of one sweep of [rankSweep], read at the rationals *)

(** What one node adds to the rank of [page] being accumulated. *)
Definition contrib (graph : Graph) (ranks : Dict.t Q) (page node : string) (cur : Q) : Q :=
  if decide (page ∈ outlinks graph node)
  then (cur + (4 # 5) * (default 0 (Dict.get ranks node)
                          / inject_Z (Z.of_nat (size (outlinks graph node)))))%Q
  else cur.

(** The rank the code gives [page] in a sweep over [ranks]. *)
Definition sweepRank (graph : Graph) (ranks : Dict.t Q) (page : string) : Q :=
  fold_left (λ acc q, contrib graph ranks page q acc) (Dict.keys graph)
    ((1 - (4 # 5)) / inject_Z (Z.of_nat (length graph)))%Q.

(** Every page has an outlink, and every outlink is a page of the graph. *)
Definition no_dangling (graph : Graph) : Prop :=
  ∀ q outs, Dict.get graph q = Some outs → outs ≠ ∅.
Definition closed (graph : Graph) : Prop :=
  ∀ q outs p, Dict.get graph q = Some outs → p ∈ outs → p ∈ Dict.keys graph.

(** A two-page cycle, a page that links outside the graph, and a graph
    with a page without outlinks. *)
Definition ex_cycle : Graph := [("A", {[ "B" ]}); ("B", {[ "A" ]})].
Definition ex_leak : Graph := [("A", {[ "B" ]})].

(** ** Example inputs *)

Definition ex_markup : string :=
  "<a href=" +:+ Py.dquote +:+ "/x" +:+ Py.dquote +:+ ">l</a><a href="
  +:+ Py.dquote +:+ "https://example.com" +:+ Py.dquote +:+ ">l2</a>".

(** An anchor marker whose value has no closing quote. *)
Definition ex_unclosed : string := "<a href=" +:+ Py.dquote +:+ "foo".

(** A fetch collaborator that always fails, one that always answers the
    markup [ex_unclosed], and a [pop] that takes the first element. *)
Definition fetch_nothing (w : unit) (url : string) : unit * string := (w, "").
Definition fetch_unclosed (w : unit) (url : string) : unit * string :=
  (w, ex_unclosed).
Definition pop_first (i : nat) (s : gset string) : string :=
  default "" (head (elements s)).

(** A web of two pages: [http://a] links to [http://b], which links
    nowhere. *)
Definition ex_page_a : string :=
  "hello <a href=" +:+ Py.dquote +:+ "http://b" +:+ Py.dquote +:+ ">b</a>".
Definition fetch_two (w : unit) (url : string) : unit * string :=
  (w, if decide (url = "http://a") then ex_page_a else "world hello").

(** ** What the crawl loop keeps true *)

Section CrawlInv.
Context {World : Type}.

(** The graph has one key per crawled URL, the index names crawled URLs
    only, [getPage] was called once for each crawled URL, and every outlink
    recorded is crawled or pending. *)
Record crawl_inv (st : @crawl_state World) : Prop := CrawlInv {
  inv_graph_wf : Dict.wf (graph st);
  inv_graph_keys : list_to_set (Dict.keys (graph st)) = crawled st;
  inv_index : ∀ word urls u,
    Dict.get (index st) word = Some urls → u ∈ urls → u ∈ crawled st;
  inv_fetched_once : NoDup (fetched st);
  inv_fetched : list_to_set (fetched st) = crawled st;
  inv_outlinks : ∀ q outs,
    Dict.get (graph st) q = Some outs → outs ⊆ crawled st ∪ tocrawl st
}.
End CrawlInv.

(** * Properties *)

(** ** Facts about dictionaries *)

Section DictFacts.
Context {V : Type}.
Implicit Types (d : Dict.t V) (k : string) (v : V).

Lemma get_set_eq d k v : Dict.get (Dict.set d k v) k = Some v.
Proof.
  induction d as [|[k' v'] d IH]; simpl.
  - by rewrite decide_True.
  - destruct (decide (k' = k)) as [->|Hne]; simpl.
    + by rewrite decide_True.
    + by rewrite decide_False.
Qed.

Lemma get_set_ne d k k' v : k ≠ k' → Dict.get (Dict.set d k v) k' = Dict.get d k'.
Proof.
  intros Hne. induction d as [|[k0 v0] d IH]; simpl.
  - by rewrite decide_False.
  - destruct (decide (k0 = k)) as [->|Hne0]; simpl.
    + by rewrite !decide_False.
    + by rewrite IH.
Qed.

Lemma get_Some_keys d k v : Dict.get d k = Some v → k ∈ Dict.keys d.
Proof.
  induction d as [|[k' v'] d IH]; simpl; [done|].
  destruct (decide (k' = k)) as [->|Hne]; intros Hg.
  - apply list_elem_of_here.
  - apply list_elem_of_further. auto.
Qed.

Lemma keys_get_Some d k : k ∈ Dict.keys d → is_Some (Dict.get d k).
Proof.
  induction d as [|[k' v'] d IH]; simpl.
  - intros Hk. by apply elem_of_nil in Hk.
  - intros Hk. destruct (decide (k' = k)) as [->|Hne]; [by eexists|].
    apply elem_of_cons in Hk as [->|Hk]; [done|auto].
Qed.

Lemma get_None_keys d k : Dict.get d k = None ↔ k ∉ Dict.keys d.
Proof.
  split.
  - intros Hg Hk. apply keys_get_Some in Hk as [v Hv]. congruence.
  - intros Hk. destruct (Dict.get d k) as [v|] eqn:Hg; [|done].
    exfalso. eauto using get_Some_keys.
Qed.

Lemma keys_set_mem d k v : k ∈ Dict.keys d → Dict.keys (Dict.set d k v) = Dict.keys d.
Proof.
  induction d as [|[k' v'] d IH]; simpl.
  - intros Hk. by apply elem_of_nil in Hk.
  - intros Hk. destruct (decide (k' = k)) as [->|Hne]; simpl; [done|].
    apply elem_of_cons in Hk as [->|Hk]; [done|]. by rewrite IH.
Qed.

Lemma keys_set_new d k v : k ∉ Dict.keys d → Dict.keys (Dict.set d k v) = Dict.keys d ++ [k].
Proof.
  induction d as [|[k' v'] d IH]; simpl; [done|].
  intros Hk. apply not_elem_of_cons in Hk as [Hne Hk].
  rewrite decide_False by done. simpl. by rewrite IH.
Qed.

Lemma elem_of_keys_set d k k' v :
  k' ∈ Dict.keys (Dict.set d k v) ↔ k' = k ∨ k' ∈ Dict.keys d.
Proof.
  destruct (decide (k ∈ Dict.keys d)) as [Hin|Hout].
  - rewrite keys_set_mem by done. naive_solver.
  - rewrite keys_set_new by done. rewrite elem_of_app, list_elem_of_singleton.
    naive_solver.
Qed.

Lemma wf_set d k v : Dict.wf d → Dict.wf (Dict.set d k v).
Proof.
  unfold Dict.wf. intros Hwf.
  destruct (decide (k ∈ Dict.keys d)) as [Hin|Hout].
  - by rewrite keys_set_mem.
  - rewrite keys_set_new by done. apply NoDup_app. split_and!; [done| |].
    + intros x Hx ->%list_elem_of_singleton. done.
    + apply NoDup_singleton.
Qed.

Lemma length_keys d : length (Dict.keys d) = length d.
Proof. apply length_map. Qed.
End DictFacts.


(** ** The scan of [linkFinder] *)

Lemma linkFinder_loop_S fuel page baseUrl urls :
  linkFinder_loop (S fuel) page baseUrl urls =
  if Py.find page marker 0 =? -1 then Some urls
  else linkFinder_loop fuel (nextPage page) baseUrl
         (let link := resolveLink baseUrl (rawLink page) in
          if isHttp link then urls ∪ {[ link ]} else urls).
Proof. reflexivity. Qed.

Lemma find_at_range s sub i :
  Py.find_at s sub i = -1 ∨ i ≤ Py.find_at s sub i ≤ i + Py.len s.
Proof.
  revert i. induction s as [|c s IH]; intros i.
  - cbn [Py.find_at]. destruct (String.prefix sub ""); unfold Py.len; simpl; lia.
  - cbn [Py.find_at]. destruct (String.prefix sub (String c s)).
    + unfold Py.len; simpl; lia.
    + destruct (IH (i + 1)) as [->|Hr]; [by left|right].
      unfold Py.len in *. simpl String.length. lia.
Qed.

Lemma length_drop n s : String.length (Py.drop n s) = (String.length s - n)%nat.
Proof.
  revert s. induction n as [|n IH]; intros [|c s]; simpl; try done.
Qed.

Lemma find_ge s sub start : -1 ≤ Py.find s sub start.
Proof.
  unfold Py.find.
  set (st := if start <? 0 then _ else _).
  destruct (Py.len s <? st); [lia|].
  assert ((start <? 0) = true → 0 ≤ st) as Hst.
  { intros Hneg. unfold st. rewrite Hneg. lia. }
  destruct (find_at_range (Py.drop (Z.to_nat st) s) sub st) as [->|Hr]; [lia|].
  destruct (start <? 0) eqn:Hneg.
  - specialize (Hst eq_refl). lia.
  - apply Z.ltb_ge in Hneg. unfold st in *. lia.
Qed.

Lemma find_range s sub start :
  0 ≤ start →
  Py.find s sub start = -1 ∨ start ≤ Py.find s sub start ≤ Py.len s.
Proof.
  intros Hs. unfold Py.find.
  destruct (start <? 0) eqn:Hneg; [apply Z.ltb_lt in Hneg; lia|].
  destruct (Py.len s <? start) eqn:Hlt; [by left|].
  apply Z.ltb_ge in Hlt.
  destruct (find_at_range (Py.drop (Z.to_nat start) s) sub start) as [->|Hr];
    [by left|right].
  unfold Py.len in *. rewrite length_drop in Hr. lia.
Qed.

Lemma find_marker_nonempty page :
  Py.find page marker 0 ≠ -1 → (0 < String.length page)%nat.
Proof.
  destruct page; [|simpl; lia]. intros Hf. by vm_compute in Hf.
Qed.

Lemma endQuote_range page :
  endQuote page = -1 ∨ 0 ≤ endQuote page ≤ Py.len page.
Proof.
  unfold endQuote.
  pose proof (find_ge page Py.dquote (Py.find page marker 0)) as Hq.
  destruct (find_range page Py.dquote
              (Py.find page Py.dquote (Py.find page marker 0) + 1))
    as [->|Hr]; [lia|by left|].
  right. lia.
Qed.

(** An iteration whose closing-quote search fails leaves the page as it
    was. *)
Lemma nextPage_stuck page : endQuote page = -1 → nextPage page = page.
Proof.
  intros He. unfold nextPage. rewrite He. unfold Py.slice_from, Py.clamp.
  simpl. unfold Py.len. by rewrite Z.min_l by lia.
Qed.

(** Every other iteration shortens the page. *)
Lemma nextPage_shorter page :
  Py.find page marker 0 ≠ -1 → endQuote page ≠ -1 →
  (String.length (nextPage page) < String.length page)%nat.
Proof.
  intros Hm He. apply find_marker_nonempty in Hm.
  destruct (endQuote_range page) as [?|Hr]; [done|].
  unfold nextPage, Py.slice_from, Py.clamp.
  destruct (endQuote page + 1 <? 0) eqn:Hneg; [apply Z.ltb_lt in Hneg; lia|].
  rewrite length_drop. unfold Py.len in *. lia.
Qed.

(** Once an iteration leaves the page unchanged, the loop never reaches its
    [break]: the same iteration repeats. *)
Lemma linkFinder_loop_stuck page baseUrl :
  Py.find page marker 0 ≠ -1 → endQuote page = -1 →
  ∀ fuel urls, linkFinder_loop fuel page baseUrl urls = None.
Proof.
  intros Hm He fuel. induction fuel as [|fuel IH]; intros urls; [done|].
  rewrite linkFinder_loop_S.
  destruct (Z.eqb_spec (Py.find page marker 0) (-1)) as [|_]; [done|].
  rewrite nextPage_stuck by done. apply IH.
Qed.

Lemma linkFinder_loop_mono fuel fuel' page baseUrl urls r :
  linkFinder_loop fuel page baseUrl urls = Some r → (fuel ≤ fuel')%nat →
  linkFinder_loop fuel' page baseUrl urls = Some r.
Proof.
  revert fuel' page urls. induction fuel as [|fuel IH]; intros fuel' page urls; [done|].
  intros Hr Hle. destruct fuel' as [|fuel']; [lia|].
  rewrite linkFinder_loop_S in *.
  destruct (Py.find page marker 0 =? -1); [done|].
  apply IH; [done|lia].
Qed.

(** [S (length page)] iterations are enough for a scan that returns. *)
Lemma linkFinder_loop_enough fuel page baseUrl urls r :
  linkFinder_loop fuel page baseUrl urls = Some r →
  linkFinder_loop (S (String.length page)) page baseUrl urls = Some r.
Proof.
  revert page urls. induction fuel as [|fuel IH]; intros page urls; [done|].
  rewrite !linkFinder_loop_S.
  destruct (Z.eqb_spec (Py.find page marker 0) (-1)) as [|Hm]; [done|].
  intros Hr. destruct (decide (endQuote page = -1)) as [He|He].
  - by rewrite nextPage_stuck, linkFinder_loop_stuck in Hr.
  - apply IH in Hr. eapply linkFinder_loop_mono; [done|].
    pose proof (nextPage_shorter page Hm He). lia.
Qed.

(** So [linkFinder] returns [None] exactly on the scans that never return. *)
Lemma linkFinder_None page baseUrl :
  linkFinder page baseUrl = None ↔
  ∀ fuel, linkFinder_loop fuel page (default "" baseUrl) ∅ = None.
Proof.
  split; [|by intros Hd; apply Hd].
  intros Hn fuel.
  destruct (linkFinder_loop fuel page (default "" baseUrl) ∅) as [r|] eqn:Hr; [|done].
  apply linkFinder_loop_enough in Hr. unfold linkFinder in Hn. congruence.
Qed.

(** C2 (the code departs from the claim).  On the markup [<a href=] followed
    by an opening quote and [foo], an anchor marker whose value has no
    closing quote, the scan of [linkFinder] never reaches its [break]: with
    any number of iterations, any base and any set of URLs collected so far
    the loop has not returned, so neither does [linkFinder].  The search for
    the closing quote answers -1, the rest of the page is [page[0:]], the
    page itself, and the same iteration repeats. *)
Theorem linkFinder_unclosed_quote_never_returns :
  Py.find ex_unclosed marker 0 = 0 ∧ endQuote ex_unclosed = -1 ∧
  nextPage ex_unclosed = ex_unclosed ∧
  (∀ fuel baseUrl urls, linkFinder_loop fuel ex_unclosed baseUrl urls = None) ∧
  (∀ baseUrl, linkFinder ex_unclosed baseUrl = None).
Proof.
  assert (∀ fuel baseUrl urls, linkFinder_loop fuel ex_unclosed baseUrl urls = None) as Hloop.
  { intros fuel baseUrl. by apply linkFinder_loop_stuck. }
  split_and!; [done|done|done|done|].
  intros baseUrl. apply Hloop.
Qed.

(** ** What [linkFinder] keeps of each candidate *)

Lemma prefix_empty s : String.prefix "" s = true.
Proof. by destruct s. Qed.

Lemma find_at_hash_none s i :
  0 ≤ i → Py.find_at s "#" i = -1 → Py.split_head "#"%char s = s.
Proof.
  revert i. induction s as [|c s IH]; intros i Hi; [done|].
  cbn [Py.find_at Py.split_head String.prefix].
  destruct (ascii_dec "#" c) as [<-|Hne].
  - rewrite prefix_empty. lia.
  - intros Hf. rewrite (proj2 (Ascii.eqb_neq c "#")) by done.
    f_equal. apply (IH (i + 1)); [lia|done].
Qed.

Lemma split_head_fragment link :
  (if Py.contains link "#" then Py.split_head "#"%char link else link)
  = Py.split_head "#"%char link.
Proof.
  unfold Py.contains, Py.find.
  change (0 <? 0) with false. cbn match.
  destruct (Py.len link <? 0) eqn:Hlen.
  { apply Z.ltb_lt in Hlen. unfold Py.len in Hlen. lia. }
  change (Py.drop (Z.to_nat 0) link) with link.
  destruct (Z.eqb_spec (Py.find_at link "#" 0) (-1)) as [Hf|_]; [|done].
  simpl. symmetry. by apply (find_at_hash_none link 0).
Qed.

(** The candidate handling of the loop is the four steps of the
    specification. *)
Lemma resolveLink_spec (base : option string) (v : string) :
  (let link := resolveLink (default "" base) v in
   if isHttp link then Some link else None) = spec_final base v.
Proof.
  unfold resolveLink, spec_final, isHttp, spec_absolute, Py.startswith.
  rewrite split_head_fragment.
  set (v1 := Py.split_head "#"%char v).
  set (v2 := if String.prefix "//" v1 then _ else _).
  cbn zeta.
  destruct (String.prefix "http://" v2) eqn:H1; cbn [negb andb orb].
  { by rewrite H1. }
  destruct (String.prefix "https://" v2) eqn:H2; cbn [negb andb orb].
  { by rewrite H1, H2. }
  destruct base as [b|].
  - change (default "" (Some b)) with b.
    destruct b as [|c b]; cbn [String.eqb negb].
    + rewrite H1, H2. cbn [orb].
      destruct v2 as [|c2 v2']; [done|].
      destruct (String.prefix "/" (String c2 v2')) eqn:Hs; [|done].
      change ("" +:+ String c2 v2') with (String c2 v2').
      by rewrite H1, H2.
    + done.
  - change (default "" None) with "". cbn [String.eqb negb]. by rewrite H1, H2.
Qed.

Lemma linkFinder_loop_rawLinks fuel page baseUrl urls :
  linkFinder_loop fuel page baseUrl urls =
  raws ← rawLinks fuel page;
  Some (urls ∪ list_to_set (filter (λ l, isHttp l = true) (resolveLink baseUrl <$> raws))).
Proof.
  revert page urls. induction fuel as [|fuel IH]; intros page urls; [done|].
  rewrite linkFinder_loop_S. cbn [rawLinks].
  destruct (Py.find page marker 0 =? -1).
  - simpl. f_equal. set_solver.
  - rewrite IH. destruct (rawLinks fuel (nextPage page)) as [raws|]; [|done].
    simpl. f_equal. rewrite filter_cons.
    destruct (isHttp (resolveLink baseUrl (rawLink page))) eqn:Hk.
    + rewrite decide_True by done. set_solver.
    + rewrite decide_False by done. done.
Qed.

Lemma filter_isHttp_spec_final (base : option string) (raws : list string) :
  filter (λ l, isHttp l = true) (resolveLink (default "" base) <$> raws)
  = omap (spec_final base) raws.
Proof.
  induction raws as [|v raws IH]; [done|].
  rewrite fmap_cons, filter_cons. cbn [omap list_omap].
  rewrite <- resolveLink_spec, <- IH. cbn zeta.
  destruct (isHttp (resolveLink (default "" base) v)) eqn:Hk.
  - by rewrite decide_True.
  - by rewrite decide_False.
Qed.

(** C6.  Whenever the scan returns, [linkFinder] yields exactly the set of
    the final forms of the quoted values it read, where the final form of a
    value is the one the specification describes: fragment stripped from the
    first [#], [http:] put before a value that starts with [//], a value
    that is not absolute resolved against the base when one is supplied
    (base + value when the value starts with [/], base + [/] + value
    otherwise) and dropped when none is, and only final forms that start
    with [http://] or [https://] kept.  The markup of the end-to-end
    scenario with base [https://example.com] yields exactly the two URLs
    [https://example.com/x] and [https://example.com]. *)
Theorem linkFinder_keeps_resolved_http_links :
  (∀ (page : string) (base : option string),
     linkFinder page base =
     raws ← rawLinks (S (String.length page)) page;
     Some (list_to_set (omap (spec_final base) raws)))
  ∧ rawLinks (S (String.length ex_markup)) ex_markup
    = Some ["/x"; "https://example.com"]
  ∧ linkFinder ex_markup (Some "https://example.com")
    = Some {[ "https://example.com/x"; "https://example.com" ]}.
Proof.
  split_and!.
  - intros page base. unfold linkFinder. rewrite linkFinder_loop_rawLinks.
    destruct (rawLinks _ page) as [raws|]; [|done]. simpl.
    rewrite filter_isHttp_spec_final. f_equal. apply union_empty_l_L.
  - vm_compute. reflexivity.
  - vm_compute. reflexivity.
Qed.

(** ** The indexer *)

Lemma app_String c s t : String c s +:+ t = String c (s +:+ t).
Proof. reflexivity. Qed.
Lemma app_empty_l s : "" +:+ s = s.
Proof. reflexivity. Qed.
Lemma app_empty_r s : s +:+ "" = s.
Proof. induction s as [|c s IH]; [done|]. by rewrite app_String, IH. Qed.
Lemma app_assoc_str s t u : (s +:+ t) +:+ u = s +:+ t +:+ u.
Proof. induction s as [|c s IH]; [done|]. by rewrite !app_String, IH. Qed.

Lemma all_space_empty : all_space "".
Proof. intros c Hc. by apply elem_of_nil in Hc. Qed.
Lemma all_space_String c s : Py.isspace c = true → all_space s → all_space (String c s).
Proof. intros Hc Hs x Hx. simpl in Hx. apply elem_of_cons in Hx as [->|Hx]; auto. Qed.
Lemma no_space_empty : no_space "".
Proof. intros c Hc. by apply elem_of_nil in Hc. Qed.
Lemma no_space_snoc t c : no_space t → Py.isspace c = false → no_space (t +:+ String c "").
Proof.
  intros Ht Hc x Hx. induction t as [|y t IH].
  - simpl in Hx. apply list_elem_of_singleton in Hx as ->. done.
  - rewrite app_String in Hx. simpl in Hx. apply elem_of_cons in Hx as [->|Hx].
    + apply Ht. simpl. apply list_elem_of_here.
    + apply IH; [|done]. intros z Hz. apply Ht. simpl. by apply list_elem_of_further.
Qed.
Lemma snoc_nonempty t c : t +:+ String c "" ≠ "".
Proof. by destruct t. Qed.

Lemma tokenized_space c s toks :
  Py.isspace c = true → tokenized s toks → tokenized (String c s) toks.
Proof.
  intros Hc Hs. destruct Hs as [ws Hws|ws t Hws Ht Hn|ws t c' rest toks Hws Ht Hn Hc' Hrest].
  - apply tokenized_nil. by apply all_space_String.
  - rewrite <- app_String. apply tokenized_last; [by apply all_space_String|done..].
  - rewrite <- app_String. apply tokenized_cons; [by apply all_space_String|done..].
Qed.

Lemma split_go_tokenized s :
  tokenized s (Py.split_go s "") ∧
  ∀ tok, tok ≠ "" → no_space tok → tokenized (tok +:+ s) (Py.split_go s tok).
Proof.
  induction s as [|c s [IH0 IH]].
  - split.
    + apply tokenized_nil, all_space_empty.
    + intros tok Htok Hn. cbn [Py.split_go]. rewrite decide_False by done.
      rewrite app_empty_r. rewrite <- (app_empty_l tok).
      by apply tokenized_last; [apply all_space_empty|..].
  - split.
    + cbn [Py.split_go]. destruct (Py.isspace c) eqn:Hc.
      * rewrite decide_True by done. by apply tokenized_space.
      * rewrite app_empty_l.
        apply (IH (String c "")); [done|].
        intros x Hx. simpl in Hx. by apply list_elem_of_singleton in Hx as ->.
    + intros tok Htok Hn. cbn [Py.split_go]. destruct (Py.isspace c) eqn:Hc.
      * rewrite decide_False by done.
        rewrite <- (app_empty_l (tok +:+ String c s)).
        by apply tokenized_cons; [apply all_space_empty|..].
      * change (String c s) with (String c "" +:+ s).
        rewrite <- (app_assoc_str tok (String c "") s).
        apply IH; [apply snoc_nonempty|by apply no_space_snoc].
Qed.

Lemma split_tokenized s : tokenized s (Py.split s).
Proof. apply split_go_tokenized. Qed.

Lemma split_go_spaces ws s :
  all_space ws → Py.split_go (ws +:+ s) "" = Py.split_go s "".
Proof.
  induction ws as [|c ws IH]; intros Hws; [done|].
  rewrite app_String. cbn [Py.split_go].
  rewrite (Hws c) by (simpl; apply list_elem_of_here).
  rewrite decide_True by done. apply IH.
  intros x Hx. apply Hws. simpl. by apply list_elem_of_further.
Qed.

Lemma split_go_run t s tok :
  no_space t → Py.split_go (t +:+ s) tok = Py.split_go s (tok +:+ t).
Proof.
  revert tok. induction t as [|c t IH]; intros tok Ht.
  - by rewrite app_empty_l, app_empty_r.
  - rewrite app_String. cbn [Py.split_go].
    rewrite (Ht c) by (simpl; apply list_elem_of_here).
    rewrite IH.
    + change (String c t) with (String c "" +:+ t). by rewrite app_assoc_str.
    + intros x Hx. apply Ht. simpl. by apply list_elem_of_further.
Qed.

Lemma tokenized_split s toks : tokenized s toks → toks = Py.split s.
Proof.
  unfold Py.split.
  induction 1 as [ws Hws|ws t Hws Ht Hn|ws t c rest toks Hws Ht Hn Hc _ IH].
  - rewrite <- (app_empty_r ws), split_go_spaces by done. done.
  - rewrite split_go_spaces by done.
    rewrite <- (app_empty_r t) at 2. rewrite split_go_run by done.
    cbn [Py.split_go]. rewrite app_empty_l. by rewrite decide_False.
  - rewrite split_go_spaces, split_go_run by done.
    cbn [Py.split_go]. rewrite Hc, app_empty_l, decide_False by done.
    by rewrite IH.
Qed.

Lemma get_addToIndex_eq (index : Index) keyword url :
  Dict.get (addToIndex index keyword url) keyword
  = Some (default [] (Dict.get index keyword) ++ [url]).
Proof.
  unfold addToIndex. destruct (Dict.get index keyword); by rewrite get_set_eq.
Qed.

Lemma get_addToIndex_ne (index : Index) keyword url word :
  keyword ≠ word →
  Dict.get (addToIndex index keyword url) word = Dict.get index word.
Proof.
  intros Hne. unfold addToIndex.
  destruct (Dict.get index keyword); by rewrite get_set_ne.
Qed.

Lemma keys_addToIndex (index : Index) keyword url :
  Dict.keys (addToIndex index keyword url)
  = if decide (keyword ∈ Dict.keys index) then Dict.keys index
    else Dict.keys index ++ [keyword].
Proof.
  unfold addToIndex. destruct (Dict.get index keyword) eqn:Hg.
  - apply get_Some_keys in Hg as Hk. rewrite decide_True by done.
    by apply keys_set_mem.
  - apply get_None_keys in Hg. rewrite decide_False by done.
    by apply keys_set_new.
Qed.

Lemma occurrences_cons_eq word words :
  occurrences word (word :: words) = S (occurrences word words).
Proof. unfold occurrences. by rewrite filter_cons, decide_True. Qed.

Lemma occurrences_cons_ne word w words :
  w ≠ word → occurrences word (w :: words) = occurrences word words.
Proof. intros Hne. unfold occurrences. by rewrite filter_cons, decide_False. Qed.

Lemma get_fold_addToIndex (words : list string) (index : Index) url word :
  Dict.get (fold_left (λ index w, addToIndex index w url) words index) word
  = match Dict.get index word, occurrences word words with
    | None, O => None
    | old, n => Some (default [] old ++ replicate n url)
    end.
Proof.
  revert index. induction words as [|w words IH]; intros index.
  - cbn [fold_left]. unfold occurrences. simpl.
    destruct (Dict.get index word); [|done]. by rewrite app_nil_r.
  - cbn [fold_left]. rewrite IH. destruct (decide (w = word)) as [->|Hne].
    + rewrite get_addToIndex_eq, occurrences_cons_eq.
      cbn [default from_option id]. rewrite <- app_assoc.
      destruct (Dict.get index word); destruct (occurrences word words); done.
    + rewrite get_addToIndex_ne, occurrences_cons_ne by done. done.
Qed.

Lemma keys_fold_addToIndex (words : list string) (index : Index) url :
  Dict.keys (fold_left (λ index w, addToIndex index w url) words index)
  = fold_left (λ ks w, if decide (w ∈ ks) then ks else ks ++ [w])
      words (Dict.keys index).
Proof.
  revert index. induction words as [|w words IH]; intros index; [done|].
  cbn [fold_left]. by rewrite IH, keys_addToIndex.
Qed.

Lemma set_new {V} (d : Dict.t V) k v :
  Dict.get d k = None → Dict.set d k v = d ++ [(k, v)].
Proof.
  induction d as [|[k' v'] d IH]; simpl; [done|].
  destruct (decide (k' = k)); [done|]. intros Hg. by rewrite IH.
Qed.

(** C8.  [content.split()] yields exactly the maximal whitespace-free runs
    of the text, verbatim (no case folding, nothing stripped), and indexing
    a page appends the URL once per occurrence of a token to the list under
    that exact token: after [addPageToIndex] the list under a word is its
    old list followed by as many copies of the URL as the word occurs among
    the tokens; a word that was absent and does not occur stays absent; a
    key that is absent is created last with the single-element list; new
    keys are created in token order, and no URL is dropped as a
    duplicate. *)
Theorem addPageToIndex_appends_url_per_token :
  (∀ content toks, tokenized content toks ↔ toks = Py.split content)
  ∧ (∀ (index : Index) url content word,
       Dict.get (addPageToIndex index url content) word
       = match Dict.get index word, occurrences word (Py.split content) with
         | None, O => None
         | old, n => Some (default [] old ++ replicate n url)
         end)
  ∧ (∀ (index : Index) keyword url,
       Dict.get index keyword = None →
       addToIndex index keyword url = index ++ [(keyword, [url])])
  ∧ (∀ (index : Index) keyword url urls,
       Dict.get index keyword = Some urls →
       Dict.get (addToIndex index keyword url) keyword = Some (urls ++ [url])
       ∧ Dict.keys (addToIndex index keyword url) = Dict.keys index)
  ∧ (∀ (index : Index) url content,
       Dict.keys (addPageToIndex index url content)
       = fold_left (λ ks w, if decide (w ∈ ks) then ks else ks ++ [w])
           (Py.split content) (Dict.keys index)).
Proof.
  split_and!.
  - intros content toks. split; [apply tokenized_split|].
    intros ->. apply split_tokenized.
  - intros. apply get_fold_addToIndex.
  - intros index keyword url Hg. unfold addToIndex. rewrite Hg. by apply set_new.
  - intros index keyword url urls Hg. split.
    + by rewrite get_addToIndex_eq, Hg.
    + rewrite keys_addToIndex, decide_True; [done|]. eauto using get_Some_keys.
  - intros. apply keys_fold_addToIndex.
Qed.

(** ** The rank engine *)

Lemma for_each_ext {A S} (xs : list A) (s : S) body body' :
  (∀ x s, x ∈ xs → body x s = body' x s) →
  for_each xs s body = for_each xs s body'.
Proof.
  revert s. induction xs as [|x xs IH]; intros s Hb; [done|].
  cbn [for_each]. rewrite Hb by apply list_elem_of_here.
  destruct (body' x s) as [s'|e]; [|done]. simpl.
  apply IH. intros y s0 Hy. apply Hb. by apply list_elem_of_further.
Qed.

Lemma for_each_pure {A S} (xs : list A) (s : S) (f : A → S → S) :
  for_each xs s (λ x s, Ok (f x s)) = Ok (fold_left (λ s x, f x s) xs s).
Proof. revert s. induction xs as [|x xs IH]; intros s; [done|]. apply IH. Qed.

Lemma set_set {V} (d : Dict.t V) k v v' :
  Dict.set (Dict.set d k v) k v' = Dict.set d k v'.
Proof.
  induction d as [|[k0 v0] d IH]; simpl.
  - by rewrite decide_True.
  - destruct (decide (k0 = k)) as [->|Hne]; simpl.
    + by rewrite decide_True.
    + rewrite decide_False by done. by rewrite IH.
Qed.

Lemma set_get_id {V} (d : Dict.t V) k v :
  Dict.get d k = Some v → Dict.set d k v = d.
Proof.
  induction d as [|[k0 v0] d IH]; simpl; [done|].
  destruct (decide (k0 = k)) as [->|Hne].
  - by intros [= ->].
  - intros Hg. by rewrite IH.
Qed.

Lemma fold_set_fresh {V} (g : string → V) (pages : list string) (acc : Dict.t V) :
  NoDup pages → (∀ p, p ∈ pages → p ∉ Dict.keys acc) →
  fold_left (λ acc p, Dict.set acc p (g p)) pages acc
  = acc ++ ((λ p, (p, g p)) <$> pages).
Proof.
  revert acc. induction pages as [|p pages IH]; intros acc Hnd Hfresh.
  - by rewrite app_nil_r.
  - apply NoDup_cons in Hnd as [Hp Hnd]. cbn [fold_left].
    rewrite set_new.
    2:{ apply get_None_keys, Hfresh, list_elem_of_here. }
    rewrite IH; [by rewrite <- app_assoc|done|].
    intros q Hq. unfold Dict.keys. rewrite fmap_app, elem_of_app.
    intros [Hin|Hin].
    + eapply Hfresh; [by apply list_elem_of_further|done].
    + simpl in Hin. apply list_elem_of_singleton in Hin as ->. done.
Qed.

Lemma truediv_Q (a b : Q) : ¬ (b == 0)%Q → truediv a b = Ok (a / b)%Q.
Proof.
  intros Hb. unfold truediv. cbn.
  destruct (Qeq_bool b 0) eqn:Heq; [|done].
  by apply Qeq_bool_iff in Heq.
Qed.

Lemma inject_nat_nonzero (n : nat) : (0 < n)%nat → ¬ (inject_Z (Z.of_nat n) == 0)%Q.
Proof.
  intros Hn Heq. unfold Qeq in Heq. simpl in Heq. lia.
Qed.

Lemma addInlink_Q (graph : Graph) (ranks : Dict.t Q) page node newrank cur :
  node ∈ Dict.keys graph → is_Some (Dict.get ranks node) →
  Dict.get newrank page = Some cur →
  addInlink graph ranks page node newrank
  = Ok (Dict.set newrank page (contrib graph ranks page node cur)).
Proof.
  intros [outs Houts]%keys_get_Some [r Hr] Hcur.
  unfold addInlink, contrib, outlinks, Dict.getitem.
  rewrite Houts, Hr, Hcur. cbn [mbind result_bind default from_option id].
  destruct (decide (page ∈ outs)) as [Hin|Hout].
  - rewrite truediv_Q; [done|].
    apply inject_nat_nonzero.
    assert (size outs ≠ 0%nat); [|lia].
    apply size_non_empty_iff. set_solver.
  - by rewrite set_get_id.
Qed.

Lemma rankSweep_inner (graph : Graph) (ranks : Dict.t Q) (page : string) nodes newrank cur :
  (∀ q, q ∈ nodes → q ∈ Dict.keys graph ∧ is_Some (Dict.get ranks q)) →
  Dict.get newrank page = Some cur →
  for_each nodes newrank (addInlink graph ranks page)
  = Ok (Dict.set newrank page
          (fold_left (λ acc q, contrib graph ranks page q acc) nodes cur)).
Proof.
  revert newrank cur. induction nodes as [|node nodes IH]; intros newrank cur Hn Hcur.
  - cbn. by rewrite set_get_id.
  - cbn [for_each fold_left].
    destruct (Hn node) as [Hk Hr]; [apply list_elem_of_here|].
    rewrite (addInlink_Q _ _ _ _ _ cur) by done. cbn [mbind result_bind].
    rewrite (IH _ (contrib graph ranks page node cur)).
    + by rewrite set_set.
    + intros q Hq. apply Hn. by apply list_elem_of_further.
    + apply get_set_eq.
Qed.

Lemma rankPage_Q (graph : Graph) (ranks : Dict.t Q) page newrank :
  (0 < length graph)%nat →
  (∀ q, q ∈ Dict.keys graph → is_Some (Dict.get ranks q)) →
  rankPage graph ranks page newrank
  = Ok (Dict.set newrank page (sweepRank graph ranks page)).
Proof.
  intros HN Hranks. unfold rankPage.
  rewrite truediv_Q by by apply inject_nat_nonzero.
  cbn [mbind result_bind]. 
  erewrite rankSweep_inner; [|by auto|apply get_set_eq].
  by rewrite set_set.
Qed.

Lemma rankSweep_Q (graph : Graph) (ranks : Dict.t Q) :
  Dict.wf graph →
  (∀ q, q ∈ Dict.keys graph → is_Some (Dict.get ranks q)) →
  rankSweep graph ranks
  = Ok ((λ p, (p, sweepRank graph ranks p)) <$> Dict.keys graph).
Proof.
  intros Hwf Hranks. unfold rankSweep.
  destruct graph as [|kv graph]; [done|].
  erewrite for_each_ext.
  2:{ intros page newrank _. apply rankPage_Q; [simpl; lia|done]. }
  rewrite for_each_pure.
  rewrite (fold_set_fresh (sweepRank (kv :: graph) ranks)); [done|done|].
  intros p _ Hp. by apply elem_of_nil in Hp.
Qed.

Lemma initRanks_Q (graph : Graph) :
  Dict.wf graph →
  initRanks graph
  = Ok ((λ p, (p, 1 / inject_Z (Z.of_nat (length graph)))%Q) <$> Dict.keys graph).
Proof.
  intros Hwf. unfold initRanks.
  destruct graph as [|kv graph]; [done|].
  set (N := inject_Z (Z.of_nat (length (kv :: graph)))).
  rewrite (for_each_ext _ _ _ (λ page ranks, Ok (Dict.set ranks page (1 / N)%Q))).
  2:{ intros page ranks _. rewrite truediv_Q by (apply inject_nat_nonzero; simpl; lia).
      done. }
  rewrite for_each_pure.
  rewrite (fold_set_fresh (λ _, (1 / N)%Q)); [done|done|].
  intros p _ Hp. by apply elem_of_nil in Hp.
Qed.

Lemma fold_contrib_sum (graph : Graph) (ranks : Dict.t Q) page nodes (cur : Q) :
  (fold_left (λ acc q, contrib graph ranks page q acc) nodes cur
   == cur + (4 # 5) * Qsum ((λ q, default 0 (Dict.get ranks q)
                                 / inject_Z (Z.of_nat (size (outlinks graph q))))
                             <$> filter (λ q, page ∈ outlinks graph q) nodes))%Q.
Proof.
  revert cur. induction nodes as [|node nodes IH]; intros cur.
  - rewrite filter_nil, fmap_nil. cbn [fold_left Qsum foldr]. ring.
  - cbn [fold_left]. rewrite IH. rewrite filter_cons. unfold contrib at 1.
    destruct (decide (page ∈ outlinks graph node)).
    + rewrite fmap_cons. cbn [Qsum foldr].
      generalize (default 0%Q (Dict.get ranks node)
                  / inject_Z (Z.of_nat (size (outlinks graph node))))%Q.
      intros x. unfold Qsum. ring.
    + reflexivity.
Qed.

Lemma Qsum_ext {A} (f g : A → Q) (xs : list A) :
  (∀ x, x ∈ xs → (f x == g x)%Q) → (Qsum (f <$> xs) == Qsum (g <$> xs))%Q.
Proof.
  induction xs as [|x xs IH]; intros Hfg; [reflexivity|].
  rewrite !fmap_cons. cbn [Qsum foldr]. fold Qsum.
  rewrite (Hfg x) by apply list_elem_of_here.
  rewrite IH; [reflexivity|]. intros y Hy. apply Hfg. by apply list_elem_of_further.
Qed.

Lemma spec_newRank_ext (graph : Graph) (f g : string → Q) p :
  (∀ q, q ∈ Dict.keys graph → (f q == g q)%Q) →
  (spec_newRank graph f p == spec_newRank graph g p)%Q.
Proof.
  intros Hfg. unfold spec_newRank.
  apply Qplus_comp; [reflexivity|]. apply Qmult_comp; [reflexivity|].
  apply Qsum_ext. intros q Hq%list_elem_of_filter.
  apply Qmult_comp; [|reflexivity]. apply Hfg, Hq.
Qed.

Lemma sweepRank_spec (graph : Graph) (ranks : Dict.t Q) p :
  (sweepRank graph ranks p
   == spec_newRank graph (λ q, default 0%Q (Dict.get ranks q)) p)%Q.
Proof. unfold sweepRank. rewrite fold_contrib_sum. reflexivity. Qed.

Lemma keys_fmap_pair {V} (g : string → V) (l : list string) :
  Dict.keys ((λ p, (p, g p)) <$> l) = l.
Proof.
  unfold Dict.keys. rewrite <- list_fmap_compose. apply list_fmap_id.
Qed.

Lemma get_fmap_pair {V} (g : string → V) (l : list string) p v :
  Dict.get ((λ p, (p, g p)) <$> l) p = Some v → v = g p.
Proof.
  induction l as [|x l IH]; [done|].
  rewrite fmap_cons. cbn [Dict.get].
  destruct (decide (x = p)) as [->|Hne]; [by intros [= <-]|done].
Qed.

Lemma is_Some_get_keys_eq {V W} (d : Dict.t V) (d' : Dict.t W) q :
  Dict.keys d = Dict.keys d' → q ∈ Dict.keys d' → is_Some (Dict.get d q).
Proof. intros Heq Hq. apply keys_get_Some. by rewrite Heq. Qed.

Lemma rankLoop_Q (graph : Graph) n :
  Dict.wf graph →
  ∀ (ranks : Dict.t Q) k,
    Dict.keys ranks = Dict.keys graph →
    (∀ p r, Dict.get ranks p = Some r → (r == spec_rank graph k p)%Q) →
    ∃ ranks', rankLoop n graph ranks = Ok ranks'
      ∧ Dict.keys ranks' = Dict.keys graph
      ∧ ∀ p r, Dict.get ranks' p = Some r → (r == spec_rank graph (n + k) p)%Q.
Proof.
  intros Hwf. induction n as [|n IH]; intros ranks k Hkeys Hval.
  - exists ranks. by split_and!.
  - cbn [rankLoop]. rewrite rankSweep_Q; [|done|].
    2:{ intros q Hq. by eapply is_Some_get_keys_eq. }
    cbn [mbind result_bind].
    destruct (IH ((λ p, (p, sweepRank graph ranks p)) <$> Dict.keys graph) (S k))
      as (ranks' & Hloop & Hkeys' & Hval').
    + apply keys_fmap_pair.
    + intros p r ->%get_fmap_pair. rewrite sweepRank_spec. cbn [spec_rank].
      apply spec_newRank_ext. intros q Hq.
      destruct (is_Some_get_keys_eq ranks graph q Hkeys Hq) as [rq Hrq].
      rewrite Hrq. cbn. by apply Hval.
    + exists ranks'. split_and!; [done|done|].
      intros p r Hp. replace (S n + k)%nat with (n + S k)%nat by lia. by apply Hval'.
Qed.

Lemma computeRanks_Q (graph : Graph) :
  Dict.wf graph →
  ∃ ranks : Dict.t Q, computeRanks graph = Ok ranks
    ∧ Dict.keys ranks = Dict.keys graph
    ∧ ∀ p r, Dict.get ranks p = Some r → (r == spec_rank graph 10 p)%Q.
Proof.
  intros Hwf. unfold computeRanks. rewrite initRanks_Q by done.
  cbn [mbind result_bind].
  destruct (rankLoop_Q graph numloops Hwf
              ((λ p, (p, 1 / inject_Z (Z.of_nat (length graph)))%Q) <$> Dict.keys graph) 0)
    as (ranks' & Hloop & Hkeys' & Hval').
  - apply keys_fmap_pair.
  - intros p r ->%get_fmap_pair. reflexivity.
  - exists ranks'. split_and!; [done|done|].
    intros p r Hp. apply (Hval' p r Hp).
Qed.

(** C1.  On a graph with no page ([N = 0]) [computeRanks] returns the empty
    rank mapping and raises nothing: the division by [npages] stands in the
    body of a loop over the pages, which does not run.  This holds for any
    arithmetic, the exact one and binary64 alike. *)
Theorem computeRanks_empty_graph {F : Type} `{Number F} (graph : Graph) :
  length graph = 0%nat → computeRanks (F:=F) graph = Ok [].
Proof. intros Hlen. destruct graph; [reflexivity|discriminate]. Qed.

Lemma computeRanks_empty_graph_witness :
  computeRanks (F:=Q) [] = Ok [] ∧ computeRanks (F:=float) [] = Ok [].
Proof.
  split.
  - apply (computeRanks_empty_graph (F:=Q) []). reflexivity.
  - apply (computeRanks_empty_graph (F:=float) []). reflexivity.
Defined.

(** C4.  On a non-empty graph (a dictionary: its keys are pairwise
    different) [computeRanks] raises nothing and returns a mapping over
    exactly the pages of the graph, in their order, in which the rank of
    every page [p] is [spec_rank graph 10 p]: the value reached from the
    uniform start [1/N] by exactly 10 sweeps with damping 4/5, each sweep
    giving [p] the rank [(1 - d)/N + d * sum over q with p in outlinks(q)
    of old(q) / |outlinks(q)|] computed from the ranks of the sweep before
    only.  Ranks are read as exact rationals. *)
Theorem computeRanks_ten_synchronous_sweeps (graph : Graph) :
  Dict.wf graph → graph ≠ [] →
  ∃ ranks : Dict.t Q,
    computeRanks graph = Ok ranks
    ∧ Dict.keys ranks = Dict.keys graph
    ∧ ∀ p, p ∈ Dict.keys graph →
        ∃ r, Dict.get ranks p = Some r ∧ (r == spec_rank graph 10 p)%Q.
Proof.
  intros Hwf _. destruct (computeRanks_Q graph Hwf) as (ranks & Hc & Hk & Hv).
  exists ranks. split_and!; [done|done|].
  intros p Hp. destruct (is_Some_get_keys_eq ranks graph p Hk Hp) as [r Hr].
  exists r. split; [done|]. by apply Hv.
Qed.

Lemma computeRanks_ten_synchronous_sweeps_witness :
  ∃ ranks : Dict.t Q,
    computeRanks ex_cycle = Ok ranks
    ∧ Dict.keys ranks = Dict.keys ex_cycle
    ∧ ∀ p, p ∈ Dict.keys ex_cycle →
        ∃ r, Dict.get ranks p = Some r ∧ (r == spec_rank ex_cycle 10 p)%Q.
Proof.
  apply (computeRanks_ten_synchronous_sweeps ex_cycle).
  - unfold Dict.wf. apply (bool_decide_unpack (NoDup _)). vm_compute. reflexivity.
  - discriminate.
Defined.

(** ** Conservation of rank mass *)

Lemma Qsum_cons (x : Q) xs : Qsum (x :: xs) = (x + Qsum xs)%Q.
Proof. reflexivity. Qed.

Lemma Qsum_plus {A} (f g : A → Q) (xs : list A) :
  (Qsum ((λ x, f x + g x) <$> xs) == Qsum (f <$> xs) + Qsum (g <$> xs))%Q.
Proof.
  induction xs as [|x xs IH].
  - cbn. ring.
  - rewrite !fmap_cons, !Qsum_cons, IH. ring.
Qed.

Lemma Qsum_scale {A} (c : Q) (f : A → Q) (xs : list A) :
  (Qsum ((λ x, c * f x) <$> xs) == c * Qsum (f <$> xs))%Q.
Proof.
  induction xs as [|x xs IH].
  - cbn. ring.
  - rewrite !fmap_cons, !Qsum_cons, IH. ring.
Qed.

Lemma Qsum_const {A} (c : Q) (xs : list A) :
  (Qsum ((λ _, c) <$> xs) == inject_Z (Z.of_nat (length xs)) * c)%Q.
Proof.
  induction xs as [|x xs IH].
  - cbn. ring.
  - rewrite fmap_cons, Qsum_cons, IH. cbn [length].
    rewrite Nat2Z.inj_succ, <- Z.add_1_r, inject_Z_plus. ring.
Qed.

Lemma Qsum_zero {A} (xs : list A) : (Qsum ((λ _, 0) <$> xs) == 0)%Q.
Proof. rewrite Qsum_const. ring. Qed.

Lemma Qsum_filter {A} (P : A → Prop) `{∀ x, Decision (P x)} (f : A → Q) xs :
  (Qsum (f <$> filter P xs) == Qsum ((λ x, if decide (P x) then f x else 0) <$> xs))%Q.
Proof.
  induction xs as [|x xs IH]; [reflexivity|].
  rewrite filter_cons, fmap_cons, Qsum_cons. destruct (decide (P x)).
  - by rewrite fmap_cons, Qsum_cons, IH.
  - rewrite IH. ring.
Qed.

Lemma Qsum_swap {A B} (F : A → B → Q) (ps : list A) (qs : list B) :
  (Qsum ((λ p, Qsum (F p <$> qs)) <$> ps)
   == Qsum ((λ q, Qsum ((λ p, F p q) <$> ps)) <$> qs))%Q.
Proof.
  induction ps as [|p ps IH].
  - cbn [fmap list_fmap]. by rewrite Qsum_zero.
  - rewrite fmap_cons, Qsum_cons, IH, <- Qsum_plus.
    apply Qsum_ext. intros q _. by rewrite fmap_cons, Qsum_cons.
Qed.

(** The pages of [l] that lie in [X] are as many as [X] has elements, when
    [l] lists every element of [X] once. *)
Lemma length_filter_gset (X : gset string) (l : list string) :
  NoDup l → (∀ x, x ∈ X → x ∈ l) → length (filter (λ p, p ∈ X) l) = size X.
Proof.
  intros Hnd Hsub. unfold size, set_size. cbn. apply Permutation_length.
  apply NoDup_Permutation.
  - by apply NoDup_filter.
  - apply NoDup_elements.
  - intros x. rewrite list_elem_of_filter, elem_of_elements. naive_solver.
Qed.

Lemma inlinks_total (graph : Graph) (f : string → Q) q :
  Dict.wf graph → no_dangling graph → closed graph → q ∈ Dict.keys graph →
  (Qsum ((λ p, if decide (p ∈ outlinks graph q)
               then f q / inject_Z (Z.of_nat (size (outlinks graph q)))
               else 0) <$> Dict.keys graph) == f q)%Q.
Proof.
  intros Hwf Hnd Hcl Hq.
  apply keys_get_Some in Hq as [outs Houts].
  unfold outlinks. rewrite Houts. cbn [default from_option id].
  rewrite <- (Qsum_filter (λ p, p ∈ outs) (λ _, (f q / _)%Q)).
  rewrite Qsum_const, length_filter_gset; [|done|by eauto].
  field. apply inject_nat_nonzero.
  assert (size outs ≠ 0%nat); [|lia].
  apply size_non_empty_iff. intros Heq. apply (Hnd q outs Houts).
  by apply leibniz_equiv.
Qed.

Lemma spec_newRank_sum (graph : Graph) (f : string → Q) :
  Dict.wf graph → graph ≠ [] → no_dangling graph → closed graph →
  (Qsum (spec_newRank graph f <$> Dict.keys graph)
   == (1 - spec_d) + spec_d * Qsum (f <$> Dict.keys graph))%Q.
Proof.
  intros Hwf Hne Hnd Hcl. unfold spec_newRank.
  rewrite (Qsum_plus (λ _, ((1 - spec_d) / spec_N graph)%Q)).
  rewrite Qsum_const, Qsum_scale.
  apply Qplus_comp.
  - unfold spec_N. rewrite length_keys. field.
    apply inject_nat_nonzero. destruct graph; [done|simpl; lia].
  - apply Qmult_comp; [reflexivity|].
    rewrite (Qsum_ext _ (λ p, Qsum ((λ q, if decide (p ∈ outlinks graph q)
                 then f q / inject_Z (Z.of_nat (size (outlinks graph q)))
                 else 0) <$> Dict.keys graph))%Q).
    2:{ intros p _. apply Qsum_filter. }
    rewrite (Qsum_swap (λ p q, if decide (p ∈ outlinks graph q) then _ else _)).
    apply Qsum_ext. intros q Hq. by apply inlinks_total.
Qed.

Lemma spec_rank_sum (graph : Graph) k :
  Dict.wf graph → graph ≠ [] → no_dangling graph → closed graph →
  (Qsum (spec_rank graph k <$> Dict.keys graph) == 1)%Q.
Proof.
  intros Hwf Hne Hnd Hcl. induction k as [|k IH].
  - cbn [spec_rank]. rewrite Qsum_const. unfold spec_N. rewrite length_keys.
    field. apply inject_nat_nonzero. destruct graph; [done|simpl; lia].
  - cbn [spec_rank]. rewrite spec_newRank_sum, IH by done. ring.
Qed.

Lemma rank_sum_values (ranks : Dict.t Q) (f : string → Q) :
  Dict.wf ranks → (∀ p r, Dict.get ranks p = Some r → (r == f p)%Q) →
  (rank_sum ranks == Qsum (f <$> Dict.keys ranks))%Q.
Proof.
  unfold rank_sum, Dict.wf. induction ranks as [|[k v] ranks IH]; intros Hwf Hv.
  - reflexivity.
  - cbn [Dict.keys map] in *. rewrite !fmap_cons, !Qsum_cons. cbn [snd fst] in *.
    apply NoDup_cons in Hwf as [Hk Hwf].
    apply Qplus_comp.
    + apply Hv. cbn [Dict.get]. by rewrite decide_True.
    + apply IH; [done|]. intros p r Hp. apply Hv. cbn [Dict.get].
      rewrite decide_False; [done|]. intros ->. apply Hk.
      by eapply get_Some_keys.
Qed.

Lemma ex_cycle_no_dangling : no_dangling ex_cycle.
Proof.
  intros q outs. unfold ex_cycle. cbn [Dict.get].
  repeat (case_decide; [intros [= <-]; set_solver|]). done.
Qed.

Lemma ex_cycle_closed : closed ex_cycle.
Proof.
  intros q outs p. unfold ex_cycle. cbn [Dict.get Dict.keys map fst].
  repeat (case_decide; [intros [= <-]; set_solver|]). done.
Qed.

(** C9 (as amended).  On a non-empty graph in which every page has at least
    one outlink and every outlink is itself a page of the graph,
    [computeRanks] raises nothing and the ranks it returns sum to exactly 1
    in exact arithmetic: every sweep keeps the total, since a page hands
    its whole rank to pages of the graph. *)
Theorem computeRanks_sum_one (graph : Graph) :
  Dict.wf graph → graph ≠ [] → no_dangling graph → closed graph →
  ∃ ranks : Dict.t Q, computeRanks graph = Ok ranks ∧ (rank_sum ranks == 1)%Q.
Proof.
  intros Hwf Hne Hnd Hcl.
  destruct (computeRanks_Q graph Hwf) as (ranks & Hc & Hk & Hv).
  exists ranks. split; [done|].
  rewrite (rank_sum_values ranks (spec_rank graph 10)); [| |done].
  - rewrite Hk. by apply spec_rank_sum.
  - unfold Dict.wf. by rewrite Hk.
Qed.

Lemma computeRanks_sum_one_witness :
  ∃ ranks : Dict.t Q, computeRanks ex_cycle = Ok ranks ∧ (rank_sum ranks == 1)%Q.
Proof.
  apply (computeRanks_sum_one ex_cycle).
  - unfold Dict.wf. apply (bool_decide_unpack (NoDup _)). vm_compute. reflexivity.
  - discriminate.
  - apply ex_cycle_no_dangling.
  - apply ex_cycle_closed.
Defined.

(** C9 as stated fails: in the graph with the single page [A] whose only
    outlink [B] is not a page of the graph, every page has an outbound
    edge, yet the ranks sum to one fifth (0.19999999999999996 in binary64),
    at distance four fifths from 1. *)
Lemma computeRanks_sum_leaks :
  no_dangling ex_leak
  ∧ (∃ ranks : Dict.t Q,
       computeRanks ex_leak = Ok ranks ∧ (rank_sum ranks == 1 # 5)%Q
       ∧ ¬ (Qabs (rank_sum ranks - 1) <= 1 # 2)%Q)
  ∧ computeRanks (F:=float) ex_leak = Ok [("A", 0x1.9999999999998p-3%float)].
Proof.
  split_and!.
  - intros q outs. unfold ex_leak. cbn [Dict.get].
    destruct (decide ("A" = q)); [|done]. intros [= <-]. set_solver.
  - eexists. split; [vm_compute; reflexivity|]. split; [by vm_compute|].
    by vm_compute.
  - vm_compute. reflexivity.
Qed.
